(** * ecdsa/keygen/local_party.go: the local party of the ECDSA key generation

    A shallow embedding of [LocalParty] (construction, [Start],
    [StoreMessage], [Finish]) and of [LocalPartySaveData.OriginalIndex].

    Conventions of the embedding.
    - A Go [int] and the value of a [*big.Int] are integers ([Z]);
      local_party.go performs no arithmetic on them, so no wrap-around can
      occur.
    - A pointer kept in the temp or save data is modelled by [option]:
      [None] is the nil pointer, [Some v] a pointer to [v].  The party's own
      [*tss.BaseParty] and [*tss.Parameters], which every method
      dereferences, are not nil.  A slice is a [list]; the nil slice is
      [[]].
    - A run-time panic (slice index out of range, [make] with a negative
      length, nil dereference) is the outcome [Panicked].
    - A send-only channel is modelled by the sequence of values sent on it
      so far, oldest first.
    - [Lock]/[Unlock] are not modelled: every operation is atomic here. *)

From Stdlib Require Import ZArith Lia.
From stdpp Require Import base option list strings.

Local Open Scope Z_scope.

(** ** Outcomes of a Go call: normal return or panic *)

Inductive Outcome (A : Type) : Type :=
| Returned (a : A)
| Panicked.
Arguments Returned {A} a.
Arguments Panicked {A}.

#[global] Instance Outcome_ret : MRet Outcome := λ A a, Returned a.
#[global] Instance Outcome_bind : MBind Outcome := λ A B f m,
  match m with
  | Returned a => f a
  | Panicked => Panicked
  end.

Definition returns {A} (m : Outcome A) : Prop := ∃ a, m = Returned a.

(** ** Library values the party stores (declared outside local_party.go) *)

(** [errors.New(msg)]. *)
Inductive error : Type := errors_New (msg : string).

(** [*tss.Error], built by [BaseParty.WrapError] from its cause. *)
Inductive Error : Type := WrapError (cause : error).

(** [crypto.ECPoint]: affine coordinates. *)
Record ECPoint : Type := { X : Z; Y : Z }.

(** [paillier.PublicKey] and [paillier.PrivateKey]. *)
Record PublicKey : Type := { N : Z }.
Record PrivateKey : Type := { PublicKey_ : PublicKey; LambdaN : Z; PhiN : Z }.

(** [vss.Share]. *)
Record Share : Type := { Threshold : Z; ID : Z; Share_ : Z }.

(** [make([]*T, n)]: [n] nil pointers; panics when [n] is negative. *)
Definition make {T : Type} (n : Z) : Outcome (list (option T)) :=
  if n <? 0 then Panicked else Returned (replicate (Z.to_nat n) None).

(** [len(a)]. *)
Definition len {T : Type} (a : list T) : Z := Z.of_nat (length a).

(** [a[i] = &v]: panics unless [0 <= i < len(a)]. *)
Definition slice_set {T : Type} (a : list (option T)) (i : Z) (v : T)
  : Outcome (list (option T)) :=
  if (0 <=? i) && (i <? len a)
  then Returned (<[Z.to_nat i := Some v]> a)
  else Panicked.

(** [x.Cmp(y)] of math/big: -1, 0 or +1.  Two identical pointers compare
    equal without being dereferenced; otherwise both are dereferenced. *)
Definition Cmp (x y : option Z) : Outcome Z :=
  match x, y with
  | Some a, Some b =>
      Returned (match Z.compare a b with Lt => -1 | Eq => 0 | Gt => 1 end)
  | None, None => Returned 0
  | _, _ => Panicked
  end.

(** ** Parties, parameters and messages *)

(** [tss.PartyID]: an identity with its index in the party set. *)
Record PartyID : Type := { Id : string; Index : Z }.

(** [tss.Parameters]: own identity, party count and threshold. *)
Record Parameters : Type := {
  partyID : PartyID;
  partyCount : Z;
  threshold : Z
}.

Definition PartyCount (params : Parameters) : Z := partyCount params.

(** The four message types of the key generation.  Their declarations are
    not in local_party.go; as the spec has it, each is "self-describing its
    sender index and, for point-to-point kinds, its recipient index", so a
    message has a sender, a recipient (nil for a broadcast) and the integers
    of its content. *)
Record MessageMetadata : Type := { From : PartyID; To : option PartyID }.

Record KGRound1CommitMessage : Type :=
  { r1c_meta : MessageMetadata; r1c_content : list Z }.
Record KGRound2VssMessage : Type :=
  { r2v_meta : MessageMetadata; r2v_content : list Z }.
Record KGRound2DeCommitMessage : Type :=
  { r2d_meta : MessageMetadata; r2d_content : list Z }.
Record KGRound3PaillierProveMessage : Type :=
  { r3p_meta : MessageMetadata; r3p_content : list Z }.

(** A [tss.Message] interface value, by dynamic type: one of the four
    message types above, or any other implementation of the interface. *)
Inductive Message : Type :=
| msgKGRound1Commit (m : KGRound1CommitMessage)
| msgKGRound2Vss (m : KGRound2VssMessage)
| msgKGRound2DeCommit (m : KGRound2DeCommitMessage)
| msgKGRound3PaillierProve (m : KGRound3PaillierProveMessage)
| msgOther (meta : MessageMetadata) (type_name : string).

Definition GetFrom (msg : Message) : PartyID :=
  match msg with
  | msgKGRound1Commit m => From (r1c_meta m)
  | msgKGRound2Vss m => From (r2v_meta m)
  | msgKGRound2DeCommit m => From (r2d_meta m)
  | msgKGRound3PaillierProve m => From (r3p_meta m)
  | msgOther meta _ => From meta
  end.

(** The dynamic type is one of the four cases of the type switch. *)
Definition recognised (msg : Message) : bool :=
  match msg with
  | msgOther _ _ => false
  | _ => true
  end.

(** The dynamic type of a message, as the type switch tells them apart. *)
Inductive MessageType : Type :=
| KGRound1Commit
| KGRound2Vss
| KGRound2DeCommit
| KGRound3PaillierProve
| Unrecognised.

Definition type_of (msg : Message) : MessageType :=
  match msg with
  | msgKGRound1Commit _ => KGRound1Commit
  | msgKGRound2Vss _ => KGRound2Vss
  | msgKGRound2DeCommit _ => KGRound2DeCommit
  | msgKGRound3PaillierProve _ => KGRound3PaillierProve
  | msgOther _ _ => Unrecognised
  end.

(** ** The party's data *)

Record LocalPartyMessageStore : Type := {
  kgRound1CommitMessages : list (option KGRound1CommitMessage);
  kgRound2VssMessages : list (option KGRound2VssMessage);
  kgRound2DeCommitMessages : list (option KGRound2DeCommitMessage);
  kgRound3PaillierProveMessage : list (option KGRound3PaillierProveMessage)
}.

Record LocalPartyTempData : Type := {
  store : LocalPartyMessageStore;
  ui : option Z;
  KGCs : list (option Z);
  vs : list (option ECPoint);
  shares : list (option Share);
  deCommitPolyG : list (option Z)
}.

Record LocalPartySaveData : Type := {
  Xi : option Z;
  ShareID : option Z;
  PaillierSk : option PrivateKey;
  BigXj : list (option ECPoint);
  PaillierPks : list (option PublicKey);
  NTildej : list (option Z);
  H1j : list (option Z);
  H2j : list (option Z);
  Ks : list (option Z);
  ECDSAPub : option ECPoint
}.

(** ** OriginalIndex *)

(** The [for j, kj := range save.Ks] loop, from position [j] on, with
    [index] still -1: the result is the final value of [index]. *)
Fixpoint scan_Ks (ki : option Z) (ks : list (option Z)) (j : Z) : Outcome Z :=
  match ks with
  | [] => Returned (-1)
  | kj :: rest =>
      c ← Cmp kj ki;
      if negb (c =? 0)
      then scan_Ks ki rest (j + 1)      (* continue *)
      else Returned j                   (* index = j; break *)
  end.

Definition index_not_recovered : error :=
  errors_New "a party index could not be recovered from Ks".

Definition OriginalIndex (save : LocalPartySaveData)
  : Outcome (Z * option error) :=
  index ← scan_Ks (ShareID save) (Ks save) 0;
  if index <? 0
  then Returned (-1, Some index_not_recovered)
  else Returned (index, None).

(** ** Views of the message store *)

(** The four slot arrays all have length [n]. *)
Definition store_sized (n : Z) (s : LocalPartyMessageStore) : Prop :=
  len (kgRound1CommitMessages s) = n
  ∧ len (kgRound2VssMessages s) = n
  ∧ len (kgRound2DeCommitMessages s) = n
  ∧ len (kgRound3PaillierProveMessage s) = n.

(** The slot array the type switch selects for [msg], read as interface
    values again so that the four arrays can be spoken of uniformly. *)
Definition slot_of (msg : Message) (s : LocalPartyMessageStore)
  : list (option Message) :=
  match msg with
  | msgKGRound1Commit _ =>
      option_map msgKGRound1Commit <$> kgRound1CommitMessages s
  | msgKGRound2Vss _ =>
      option_map msgKGRound2Vss <$> kgRound2VssMessages s
  | msgKGRound2DeCommit _ =>
      option_map msgKGRound2DeCommit <$> kgRound2DeCommitMessages s
  | msgKGRound3PaillierProve _ =>
      option_map msgKGRound3PaillierProve <$> kgRound3PaillierProveMessage s
  | msgOther _ _ => []
  end.

(** ** Rounds *)

(** What a call into a round object does to the data it holds references
    to: its own fields, the party's temp and save data, the messages it
    sends on the outbound channel, and the error it returns (nil: none). *)
Record RoundEffect (R : Type) : Type := {
  eff_round : R;
  eff_temp : LocalPartyTempData;
  eff_save : LocalPartySaveData;
  eff_sent : list Message;
  eff_err : option Error
}.
Arguments eff_round {R} _.
Arguments eff_temp {R} _.
Arguments eff_save {R} _.
Arguments eff_sent {R} _.
Arguments eff_err {R} _.

(** Modelled from the spec: the round objects, which are declared outside
    local_party.go, as far as the party depends on them.
    - [round1]: the fields of a round-1 object.
    - [newRound1 params]: "builds Round 1 with references to shared
      temp/save data and the outbound channel".  The references are implicit
      here (the round's methods receive the party's temp and save data), and
      construction writes to neither.
    - [round1_Start]: the [Start] method of a round-1 object; it may change
      the round's fields and the temp and save data, send messages and
      return an error.
    - [round_finalize number]: the finalize step of round [number], which
      "consumes filled slots, performs validation, computes this round's
      contribution to save data"; a validation failure is the error on the
      left.
    Everything proved below for an arbitrary instance holds whatever these
    methods do. *)
Class Rounds : Type := {
  round1 : Type;
  newRound1 : Parameters → round1;
  round1_Start :
    round1 → LocalPartyTempData → LocalPartySaveData → RoundEffect round1;
  round_finalize :
    Z → Parameters → LocalPartyTempData → LocalPartySaveData →
    Error + (LocalPartyTempData * LocalPartySaveData * list Message)
}.

(** A [tss.Round] interface value, by dynamic type: the nil interface, a
    [*round1] ([ptr_round1 None] is the nil pointer of that type), or one of
    the later states, which are modelled from the spec: "States: Round1 ->
    Round2 -> Round3 -> Done". *)
Inductive tssRound (R1 : Type) : Type :=
| nilRound
| ptr_round1 (r : option R1)
| ptr_round2
| ptr_round3
| doneRound.
Arguments nilRound {R1}.
Arguments ptr_round1 {R1} r.
Arguments ptr_round2 {R1}.
Arguments ptr_round3 {R1}.
Arguments doneRound {R1}.

Section Party.
Context {rounds : Rounds}.

Record BaseParty : Type := {
  Out : list Message;
  Round : tssRound round1
}.

Record LocalParty : Type := {
  base : BaseParty;
  params : Parameters;
  temp : LocalPartyTempData;
  data : LocalPartySaveData;
  end_ : list LocalPartySaveData
}.

(** *** NewLocalParty *)

Definition NewLocalParty
    (params : Parameters)
    (out : list Message)
    (end_ : list LocalPartySaveData) : Outcome LocalParty :=
  let partyCount := PartyCount params in
  (* msgs init *)
  kgcs ← make partyCount;
  r1c ← make partyCount;
  r2v ← make partyCount;
  r2d ← make partyCount;
  r3p ← make partyCount;
  (* data init *)
  bigXj ← make partyCount;
  paillierPks ← make partyCount;
  nTildej ← make partyCount;
  h1j ← make partyCount;
  h2j ← make partyCount;
  (* round init *)
  let round := newRound1 params in
  mret {|
    base := {| Out := out; Round := ptr_round1 (Some round) |};
    params := params;
    temp := {|
      store := {|
        kgRound1CommitMessages := r1c;
        kgRound2VssMessages := r2v;
        kgRound2DeCommitMessages := r2d;
        kgRound3PaillierProveMessage := r3p
      |};
      ui := None; KGCs := kgcs; vs := []; shares := []; deCommitPolyG := []
    |};
    data := {|
      Xi := None; ShareID := None; PaillierSk := None;
      BigXj := bigXj; PaillierPks := paillierPks;
      NTildej := nTildej; H1j := h1j; H2j := h2j;
      Ks := [];
      ECDSAPub := None
    |};
    end_ := end_
  |}.

(** *** Start *)

Definition could_not_start : Error :=
  WrapError (errors_New "could not start. this party is in an unexpected state. use the constructor and Start()"%string).

Definition Start (p : LocalParty) : LocalParty * option Error :=
  match Round (base p) with
  | ptr_round1 (Some round) =>
      let e := round1_Start round (temp p) (data p) in
      ({| base := {| Out := Out (base p) ++ eff_sent e;
                     Round := ptr_round1 (Some (eff_round e)) |};
          params := params p;
          temp := eff_temp e;
          data := eff_save e;
          end_ := end_ p |},
       eff_err e)
  | _ => (p, Some could_not_start)
  end.

(** *** StoreMessage *)

Definition with_store (p : LocalParty) (s : LocalPartyMessageStore)
  : LocalParty :=
  {| base := base p;
     params := params p;
     temp := {| store := s; ui := ui (temp p); KGCs := KGCs (temp p);
                vs := vs (temp p); shares := shares (temp p);
                deCommitPolyG := deCommitPolyG (temp p) |};
     data := data p;
     end_ := end_ p |}.

Definition StoreMessage (p : LocalParty) (msg : Message)
  : Outcome (LocalParty * bool * option Error) :=
  let fromPIdx := Index (GetFrom msg) in
  let s := store (temp p) in
  match msg with
  | msgKGRound1Commit m =>
      a ← slice_set (kgRound1CommitMessages s) fromPIdx m;
      mret (with_store p
              {| kgRound1CommitMessages := a;
                 kgRound2VssMessages := kgRound2VssMessages s;
                 kgRound2DeCommitMessages := kgRound2DeCommitMessages s;
                 kgRound3PaillierProveMessage := kgRound3PaillierProveMessage s |},
            true, None)
  | msgKGRound2Vss m =>
      a ← slice_set (kgRound2VssMessages s) fromPIdx m;
      mret (with_store p
              {| kgRound1CommitMessages := kgRound1CommitMessages s;
                 kgRound2VssMessages := a;
                 kgRound2DeCommitMessages := kgRound2DeCommitMessages s;
                 kgRound3PaillierProveMessage := kgRound3PaillierProveMessage s |},
            true, None)
  | msgKGRound2DeCommit m =>
      a ← slice_set (kgRound2DeCommitMessages s) fromPIdx m;
      mret (with_store p
              {| kgRound1CommitMessages := kgRound1CommitMessages s;
                 kgRound2VssMessages := kgRound2VssMessages s;
                 kgRound2DeCommitMessages := a;
                 kgRound3PaillierProveMessage := kgRound3PaillierProveMessage s |},
            true, None)
  | msgKGRound3PaillierProve m =>
      a ← slice_set (kgRound3PaillierProveMessage s) fromPIdx m;
      mret (with_store p
              {| kgRound1CommitMessages := kgRound1CommitMessages s;
                 kgRound2VssMessages := kgRound2VssMessages s;
                 kgRound2DeCommitMessages := kgRound2DeCommitMessages s;
                 kgRound3PaillierProveMessage := a |},
            true, None)
  | msgOther _ _ =>                    (* unrecognised message, just ignore! *)
      mret (p, false, None)
  end.

(** *** Finish *)

Definition Finish (p : LocalParty) : LocalParty :=
  {| base := base p;
     params := params p;
     temp := temp p;
     data := data p;
     end_ := end_ p ++ [data p] |}.

End Party.

(** ** The round engine behind Update *)

(** [Update] calls [tss.BaseUpdate] and, through it, the round objects;
    neither is in local_party.go.  This section follows the spec's
    description of them. *)
Section Engine.
Context {rounds : Rounds}.

(** Every slot of the array holds a message. *)
Definition filled {T : Type} (a : list (option T)) : bool :=
  forallb (λ x, bool_decide (is_Some x)) a.

(** Every slot but the party's own holds a message. *)
Definition filled_by_others {T : Type} (own : Z) (a : list (option T)) : bool :=
  forallb (λ jx, (Z.of_nat jx.1 =? own) || bool_decide (is_Some jx.2))
          (imap pair a).

(** Modelled from the spec: [CanProceed] of the current round, "true once
    every required inbound slot for this round is filled".  Round 1: "a
    commit-message slot filled for every party including self"; round 2:
    "both slot arrays fully populated from every other party"; round 3:
    "receipt of every other party's proof". *)
Definition CanProceed (p : LocalParty) : bool :=
  let s := store (temp p) in
  let own := Index (partyID (params p)) in
  match Round (base p) with
  | ptr_round1 (Some _) => filled (kgRound1CommitMessages s)
  | ptr_round2 =>
      filled_by_others own (kgRound2VssMessages s)
      && filled_by_others own (kgRound2DeCommitMessages s)
  | ptr_round3 => filled_by_others own (kgRound3PaillierProveMessage s)
  | _ => false
  end.

(** Modelled from the spec: the engine "runs the current round's finalize
    step and swaps in the next round object"; a validation failure "is
    fatal to the party" and nothing is swapped in. *)
Definition finalize (number : Z) (next : tssRound round1) (p : LocalParty)
  : Error + LocalParty :=
  match round_finalize number (params p) (temp p) (data p) with
  | inl err => inl err
  | inr (t, s, sent) =>
      inr {| base := {| Out := Out (base p) ++ sent; Round := next |};
             params := params p;
             temp := t;
             data := s;
             end_ := end_ p |}
  end.

(** Modelled from the spec: the transition rule, "repeating until either a
    round is not yet complete or the terminal round finishes and calls
    Finish".  One definition per round the repetition can start from. *)
Definition advance_from_round3 (p : LocalParty) : LocalParty * option Error :=
  if CanProceed p then
    match finalize 3 doneRound p with
    | inl err => (p, Some err)
    | inr p' => (Finish p', None)
    end
  else (p, None).

Definition advance_from_round2 (p : LocalParty) : LocalParty * option Error :=
  if CanProceed p then
    match finalize 2 ptr_round3 p with
    | inl err => (p, Some err)
    | inr p' => advance_from_round3 p'
    end
  else (p, None).

Definition advance_from_round1 (p : LocalParty) : LocalParty * option Error :=
  if CanProceed p then
    match finalize 1 ptr_round2 p with
    | inl err => (p, Some err)
    | inr p' => advance_from_round2 p'
    end
  else (p, None).

Definition advance (p : LocalParty) : LocalParty * option Error :=
  match Round (base p) with
  | ptr_round1 (Some _) => advance_from_round1 p
  | ptr_round2 => advance_from_round2 p
  | ptr_round3 => advance_from_round3 p
  | _ => (p, None)
  end.

(** Modelled from the spec: [Update] "delegates to the shared round-advance
    algorithm: store the message, then attempt round completion/advance";
    the transition rule applies "after StoreMessage succeeds". *)
Definition Update (p : LocalParty) (msg : Message) (phase : string)
  : Outcome (LocalParty * bool * option Error) :=
  r ← StoreMessage p msg;
  match r with
  | (p1, true, _) =>
      let (p2, err) := advance p1 in
      mret (p2, bool_decide (err = None), err)
  | (p1, false, err) => mret (p1, false, err)
  end.

(** A caller's use of a party: the calls it makes, in order. *)
Inductive Call : Type :=
| callStart
| callUpdate (msg : Message) (phase : string).

Definition call (p : LocalParty) (c : Call)
  : Outcome (LocalParty * option Error) :=
  match c with
  | callStart => mret (Start p)
  | callUpdate msg phase =>
      r ← Update p msg phase;
      mret (r.1.1, r.2)
  end.

(** The calls are made one after the other; the caller stops at the first
    error. *)
Fixpoint run (p : LocalParty) (cs : list Call)
  : Outcome (LocalParty * option Error) :=
  match cs with
  | [] => mret (p, None)
  | c :: rest =>
      r ← call p c;
      match r with
      | (p', None) => run p' rest
      | (p', Some err) => mret (p', Some err)
      end
  end.

(** A successful protocol run from [p] to [p']: no call failed and the
    engine reached Done. *)
Definition successful_run (p : LocalParty) (cs : list Call) (p' : LocalParty)
  : Prop :=
  run p cs = Returned (p', None) ∧ Round (base p') = doneRound.

(** What the result channel holds when [e] had been sent on it before the
    party was constructed: one more value, the party's save data, once the
    engine is done, and nothing more before that. *)
Definition delivered (e : list LocalPartySaveData) (p : LocalParty) : Prop :=
  match Round (base p) with
  | doneRound => end_ p = e ++ [data p]
  | _ => end_ p = e
  end.

End Engine.

(** ** The methods of local_party.go, called in sequence *)

Section Methods.
Context {rounds : Rounds}.

(** [func (p *LocalParty) PartyID() *tss.PartyID]: the identity kept in the
    parameters. *)
Definition LocalParty_PartyID (p : LocalParty) : PartyID :=
  partyID (params p).

(** A call of one of the methods that local_party.go implements itself. *)
Inductive Method : Type :=
| methodStart
| methodStoreMessage (msg : Message)
| methodFinish.

(** The party after the call, whatever the call returned; a panic ends the
    sequence. *)
Definition invoke (p : LocalParty) (m : Method) : Outcome LocalParty :=
  match m with
  | methodStart => mret (Start p).1
  | methodStoreMessage msg =>
      r ← StoreMessage p msg;
      mret r.1.1
  | methodFinish => mret (Finish p)
  end.

Fixpoint invoke_all (p : LocalParty) (ms : list Method) : Outcome LocalParty :=
  match ms with
  | [] => mret p
  | m :: rest =>
      p' ← invoke p m;
      invoke_all p' rest
  end.

(** The messages are stored one after the other. *)
Definition store_all (p : LocalParty) (msgs : list Message)
  : Outcome LocalParty :=
  invoke_all p (methodStoreMessage <$> msgs).

(** The number of [Finish] calls in a sequence. *)
Fixpoint count_Finish (ms : list Method) : nat :=
  match ms with
  | [] => 0
  | methodFinish :: rest => S (count_Finish rest)
  | _ :: rest => count_Finish rest
  end.

(** Slot [j] of the array for messages of type [t] holds a message. *)
Definition slot_filled (t : MessageType) (s : LocalPartyMessageStore) (j : nat)
  : Prop :=
  match t with
  | KGRound1Commit => ∃ m, kgRound1CommitMessages s !! j = Some (Some m)
  | KGRound2Vss => ∃ m, kgRound2VssMessages s !! j = Some (Some m)
  | KGRound2DeCommit => ∃ m, kgRound2DeCommitMessages s !! j = Some (Some m)
  | KGRound3PaillierProve =>
      ∃ m, kgRound3PaillierProveMessage s !! j = Some (Some m)
  | Unrecognised => False
  end.

(** Two messages go to different slots: they differ in type or in sender
    index. *)
Definition different_slot (m1 m2 : Message) : Prop :=
  type_of m1 ≠ type_of m2 ∨ Index (GetFrom m1) ≠ Index (GetFrom m2).

End Methods.

(** ** A concrete implementation of the rounds *)

(** Modelled from the spec: a round's [Start] "emits this round's outbound
    messages, computable from temp/save data already present", and round 1
    broadcasts its commitment; finalize steps whose checks all pass.  The
    values the cryptographic primitives would compute are outside
    local_party.go and are left out: the broadcast has an empty content, and
    temp and save data are passed through. *)
Definition plain_rounds : Rounds := {|
  round1 := Parameters;
  newRound1 := λ params, params;
  round1_Start := λ round temp save,
    {| eff_round := round;
       eff_temp := temp;
       eff_save := save;
       eff_sent :=
         [msgKGRound1Commit
            {| r1c_meta := {| From := partyID round; To := None |};
               r1c_content := [] |}];
       eff_err := None |};
  round_finalize := λ number params temp save, inr (temp, save, [])
|}.

(** ** Concrete inputs *)

Definition party (i : Z) : PartyID := {| Id := "P"; Index := i |}.

Definition params_of (own n : Z) : Parameters :=
  {| partyID := party own; partyCount := n; threshold := 1 |}.

Definition broadcast (i : Z) : MessageMetadata :=
  {| From := party i; To := None |}.

Definition commit_from (i : Z) (c : list Z) : Message :=
  msgKGRound1Commit {| r1c_meta := broadcast i; r1c_content := c |}.
Definition vss_from (i : Z) (c : list Z) : Message :=
  msgKGRound2Vss
    {| r2v_meta := {| From := party i; To := Some (party 0) |};
       r2v_content := c |}.
Definition decommit_from (i : Z) (c : list Z) : Message :=
  msgKGRound2DeCommit {| r2d_meta := broadcast i; r2d_content := c |}.
Definition proof_from (i : Z) (c : list Z) : Message :=
  msgKGRound3PaillierProve {| r3p_meta := broadcast i; r3p_content := c |}.
Definition unknown_from (i : Z) : Message :=
  msgOther (broadcast i) "SignRound1Message".

(** Save data with the given share id and original indexes, everything
    else as the zero value. *)
Definition save_with (shareID : option Z) (ks : list (option Z))
  : LocalPartySaveData :=
  {| Xi := None; ShareID := shareID; PaillierSk := None;
     BigXj := []; PaillierPks := []; NTildej := []; H1j := []; H2j := [];
     Ks := ks; ECDSAPub := None |}.

(** A party with every field empty; it stands for the missing result of a
    call that panicked. *)
Definition no_party {rounds : Rounds} : LocalParty :=
  {| base := {| Out := []; Round := nilRound |};
     params := {| partyID := {| Id := ""; Index := 0 |};
                  partyCount := 0; threshold := 0 |};
     temp := {| store := {| kgRound1CommitMessages := [];
                            kgRound2VssMessages := [];
                            kgRound2DeCommitMessages := [];
                            kgRound3PaillierProveMessage := [] |};
                ui := None; KGCs := []; vs := []; shares := [];
                deCommitPolyG := [] |};
     data := save_with None [];
     end_ := [] |}.

(** The party a constructor call returned. *)
Definition returned_party {rounds : Rounds} (o : Outcome LocalParty) : LocalParty :=
  match o with
  | Returned p => p
  | Panicked => no_party
  end.

(** Party 0 of three, and party 0 of two, as constructed, with fresh
    channels. *)
Definition fresh_party : @LocalParty plain_rounds :=
  returned_party (NewLocalParty (params_of 0 3) [] []).
Definition fresh_party_of_two : @LocalParty plain_rounds :=
  returned_party (NewLocalParty (params_of 0 2) [] []).

(** The party a sequence of calls leaves behind. *)
Definition party_after {rounds : Rounds} (p : LocalParty) (cs : list Call)
  : LocalParty :=
  match run p cs with
  | Returned (p', _) => p'
  | Panicked => no_party
  end.

(** The calls of party 0 in a two-party run: it starts, then receives
    every message of the three rounds. *)
Definition two_party_calls : list Call :=
  [ callStart;
    callUpdate (commit_from 0 [11]) "keygen";
    callUpdate (commit_from 1 [12]) "keygen";
    callUpdate (vss_from 1 [21]) "keygen";
    callUpdate (decommit_from 1 [22]) "keygen";
    callUpdate (proof_from 1 [31]) "keygen" ].


(** Messages that reach party 0 of three before it is started, one of them
    of a type the key generation does not know. *)
Definition early_messages : list Message :=
  [commit_from 1 [12]; vss_from 2 [21]; unknown_from 9; commit_from 0 [11]].

Definition party_with_early_messages : @LocalParty plain_rounds :=
  match store_all fresh_party early_messages with
  | Returned p => p
  | Panicked => no_party
  end.

(** Calls of all three methods on party 0 of three. *)
Definition mixed_calls : list Method :=
  [ methodStoreMessage (commit_from 1 [12]);
    methodStart;
    methodFinish;
    methodStoreMessage (proof_from 2 [31]);
    methodFinish ].

Definition party_after_mixed_calls : @LocalParty plain_rounds :=
  match invoke_all fresh_party mixed_calls with
  | Returned p => p
  | Panicked => no_party
  end.

(** * Properties *)

(** ** OriginalIndex *)

(** One iteration of the loop on a non-nil entry, the share id non-nil. *)
Lemma scan_Ks_step (k a : Z) (rest : list (option Z)) (j : Z) :
  scan_Ks (Some k) (Some a :: rest) j =
  if decide (a = k) then Returned j else scan_Ks (Some k) rest (j + 1).
Proof.
  simpl. unfold Cmp. simpl.
  destruct (Z.compare_spec a k) as [Heq | Hlt | Hgt]; simpl.
  - by rewrite decide_True.
  - by rewrite decide_False by lia.
  - by rewrite decide_False by lia.
Qed.

(** The scan skips a prefix without a match and stops on the match. *)
Lemma scan_Ks_found (k : Z) (pre post : list Z) (j : Z) :
  k ∉ pre →
  scan_Ks (Some k) (Some <$> (pre ++ k :: post)) j = Returned (j + len pre).
Proof.
  revert j. induction pre as [| a pre IH]; intros j Hpre.
  - rewrite app_nil_l, fmap_cons, scan_Ks_step, decide_True by done.
    unfold len. simpl. f_equal. lia.
  - apply not_elem_of_cons in Hpre as [Hne Hpre].
    rewrite <- app_comm_cons, fmap_cons, scan_Ks_step.
    rewrite decide_False by congruence.
    rewrite IH by done. unfold len. simpl length. f_equal. lia.
Qed.

(** Without a match the scan runs to the end and leaves the index at -1. *)
Lemma scan_Ks_not_found (k : Z) (ids : list Z) (j : Z) :
  k ∉ ids → scan_Ks (Some k) (Some <$> ids) j = Returned (-1).
Proof.
  revert j. induction ids as [| a ids IH]; intros j Hk; [done |].
  apply not_elem_of_cons in Hk as [Hne Hk].
  rewrite fmap_cons, scan_Ks_step, decide_False by congruence.
  by apply IH.
Qed.

Lemma OriginalIndex_found save (k : Z) (pre post : list Z) :
  ShareID save = Some k →
  Ks save = Some <$> (pre ++ k :: post) →
  k ∉ pre →
  OriginalIndex save = Returned (len pre, None).
Proof.
  intros Hid Hks Hpre. unfold OriginalIndex.
  rewrite Hid, Hks, scan_Ks_found by done. simpl.
  assert ((0 + len pre <? 0) = false) as ->
    by (apply Z.ltb_ge; unfold len; lia).
  done.
Qed.

Lemma OriginalIndex_not_found save (k : Z) (ids : list Z) :
  ShareID save = Some k →
  Ks save = Some <$> ids →
  k ∉ ids →
  OriginalIndex save = Returned (-1, Some index_not_recovered).
Proof.
  intros Hid Hks Hk. unfold OriginalIndex.
  by rewrite Hid, Hks, scan_Ks_not_found.
Qed.

(** C2, as amended.  For save data whose [ShareID] and [Ks] entries are
    non-nil, [OriginalIndex] returns: either no entry of [Ks] equals
    [ShareID] and the result is -1 with the index-recovery error, or the
    result is the position of the first entry equal to [ShareID], with a nil
    error. *)
Theorem OriginalIndex_first_match save (k : Z) (ids : list Z) :
  ShareID save = Some k →
  Ks save = Some <$> ids →
  ((k ∉ ids) ∧ OriginalIndex save = Returned (-1, Some index_not_recovered))
  ∨ (∃ j : nat,
        ids !! j = Some k
        ∧ (∀ i : nat, (i < j)%nat → ids !! i ≠ Some k)
        ∧ OriginalIndex save = Returned (Z.of_nat j, None)).
Proof.
  intros Hid Hks. destruct (decide (k ∈ ids)) as [Hin | Hout].
  - right. apply list_elem_of_split_l in Hin as (pre & post & -> & Hpre).
    exists (length pre). split_and!.
    + by rewrite list_lookup_middle.
    + intros i Hi Hlook. apply Hpre.
      rewrite lookup_app_l in Hlook by done.
      by eapply list_elem_of_lookup_2.
    + by eapply OriginalIndex_found.
  - left. split; [done |]. by eapply OriginalIndex_not_found.
Qed.

(** C7.  When [Ks] holds the parties' share ids in original-index order
    without duplicates, and the party's own [ShareID] is the one at position
    [i], [OriginalIndex] on its save data returns [i] and a nil error. *)
Theorem OriginalIndex_own_index save (ids : list Z) (i : nat) (k : Z) :
  Ks save = Some <$> ids →
  NoDup ids →
  ids !! i = Some k →
  ShareID save = Some k →
  OriginalIndex save = Returned (Z.of_nat i, None).
Proof.
  intros Hks Hnodup Hi Hid.
  pose proof (take_drop_middle ids i k Hi) as Hsplit.
  assert (length (take i ids) = i) as Hlen.
  { apply length_take_le. apply lookup_lt_Some in Hi. lia. }
  rewrite <- Hsplit in Hnodup, Hks.
  apply NoDup_app in Hnodup as (_ & Hdisj & Hrest).
  assert (k ∉ take i ids) as Hpre.
  { intros Hin. apply (Hdisj k Hin). by left. }
  rewrite (OriginalIndex_found save k (take i ids) (drop (S i) ids)) by done.
  unfold len. by rewrite Hlen.
Qed.

(** ** Slices *)

Lemma make_returns {T : Type} (n : Z) :
  0 ≤ n → @make T n = Returned (replicate (Z.to_nat n) None).
Proof. intros Hn. unfold make. by rewrite (proj2 (Z.ltb_ge n 0)). Qed.


Lemma slice_set_in_range {T : Type} (a : list (option T)) (i : Z) (v : T) :
  0 ≤ i < len a → slice_set a i v = Returned (<[Z.to_nat i := Some v]> a).
Proof.
  intros [Hlo Hhi]. unfold slice_set.
  by rewrite (proj2 (Z.leb_le 0 i)), (proj2 (Z.ltb_lt i (len a))).
Qed.

Lemma slice_set_out_of_range {T : Type} (a : list (option T)) (i : Z) (v : T) :
  ¬ (0 ≤ i < len a) → slice_set a i v = Panicked.
Proof.
  intros Hout. unfold slice_set.
  destruct (0 <=? i) eqn:Hlo; [| done].
  destruct (i <? len a) eqn:Hhi; [| done].
  apply Z.leb_le in Hlo. apply Z.ltb_lt in Hhi. lia.
Qed.

Lemma slice_set_Returned {T : Type} (a a' : list (option T)) (i : Z) (v : T) :
  slice_set a i v = Returned a' →
  0 ≤ i < len a ∧ a' = <[Z.to_nat i := Some v]> a.
Proof.
  intros Hset. destruct (decide (0 ≤ i < len a)) as [Hin | Hout].
  - rewrite slice_set_in_range in Hset by done. by inversion Hset.
  - by rewrite slice_set_out_of_range in Hset.
Qed.

Lemma len_insert {T : Type} (a : list T) (i : nat) (x : T) :
  len (<[i := x]> a) = len a.
Proof. unfold len. by rewrite length_insert. Qed.

Section PartyProperties.
Context {rounds : Rounds}.

(** ** NewLocalParty *)

(** What [NewLocalParty] returns for a party count that [make] accepts. *)
Lemma NewLocalParty_returns params out e :
  0 ≤ PartyCount params →
  NewLocalParty params out e = Returned
    (let nils {T} : list (option T) :=
       replicate (Z.to_nat (PartyCount params)) None in
     {| base := {| Out := out; Round := ptr_round1 (Some (newRound1 params)) |};
        params := params;
        temp := {|
          store := {|
            kgRound1CommitMessages := nils;
            kgRound2VssMessages := nils;
            kgRound2DeCommitMessages := nils;
            kgRound3PaillierProveMessage := nils
          |};
          ui := None; KGCs := nils; vs := []; shares := []; deCommitPolyG := []
        |};
        data := {|
          Xi := None; ShareID := None; PaillierSk := None;
          BigXj := nils; PaillierPks := nils;
          NTildej := nils; H1j := nils; H2j := nils;
          Ks := [];
          ECDSAPub := None
        |};
        end_ := e |}).
Proof.
  intros Hn. unfold NewLocalParty.
  repeat (rewrite make_returns by done; simpl).
  done.
Qed.


Lemma NewLocalParty_negative_count params out e :
  PartyCount params < 0 → NewLocalParty params out e = Panicked.
Proof.
  intros Hn. unfold NewLocalParty, make.
  by rewrite (proj2 (Z.ltb_lt (PartyCount params) 0)).
Qed.


(** ** StoreMessage *)

(** What [StoreMessage] computes for each of the four recognised types,
    given that the index assignment does not panic. *)
Ltac store_inv H :=
  unfold StoreMessage in H; simpl in H;
  match type of H with
  | context [slice_set ?a ?i ?v] =>
      let Hset := fresh "Hset" in
      let a' := fresh "a'" in
      destruct (slice_set a i v) as [a' |] eqn:Hset; simpl in H;
      [ apply slice_set_Returned in Hset as [? ->]; inversion H; subst; clear H
      | discriminate H ]
  | _ => inversion H; subst; clear H
  end.


(** C5.  A message of one of the four recognised types whose sender index
    is in [[0, n)], [n] the length of the slot arrays, is stored in the slot
    array of its type at the sender's index, and [StoreMessage] returns
    [(true, nil)]; neither the party's round nor the message's content is
    looked at. *)
Theorem StoreMessage_stores p msg n :
  recognised msg = true →
  store_sized n (store (temp p)) →
  0 ≤ Index (GetFrom msg) < n →
  ∃ p', StoreMessage p msg = Returned (p', true, None)
    ∧ slot_of msg (store (temp p')) !! Z.to_nat (Index (GetFrom msg))
      = Some (Some msg).
Proof.
  intros Hrec (H1 & H2 & H3 & H4) Hidx.
  destruct msg as [m | m | m | m | ? ?]; try discriminate Hrec;
    unfold StoreMessage; simpl in *;
    rewrite slice_set_in_range by lia; simpl;
    (eexists; split; [reflexivity |]); simpl;
    rewrite list_lookup_fmap, list_lookup_insert_eq; try done;
    unfold len in *; lia.
Qed.


(** C6.  A call of [StoreMessage] that returns changes nothing but the slot
    array of the message's type, and in it only the position of the sender's
    index: the save data, [KGCs] and the other temp fields, the base party,
    the parameters and the result channel are the same, each slot array of
    another type is the same, and every other position of the array of the
    message's type is the same. *)
Theorem StoreMessage_frame p msg p' ok err :
  StoreMessage p msg = Returned (p', ok, err) →
  data p' = data p
  ∧ KGCs (temp p') = KGCs (temp p)
  ∧ ui (temp p') = ui (temp p)
  ∧ vs (temp p') = vs (temp p)
  ∧ shares (temp p') = shares (temp p)
  ∧ deCommitPolyG (temp p') = deCommitPolyG (temp p)
  ∧ base p' = base p
  ∧ params p' = params p
  ∧ end_ p' = end_ p
  ∧ (type_of msg ≠ KGRound1Commit →
       kgRound1CommitMessages (store (temp p'))
       = kgRound1CommitMessages (store (temp p)))
  ∧ (type_of msg ≠ KGRound2Vss →
       kgRound2VssMessages (store (temp p'))
       = kgRound2VssMessages (store (temp p)))
  ∧ (type_of msg ≠ KGRound2DeCommit →
       kgRound2DeCommitMessages (store (temp p'))
       = kgRound2DeCommitMessages (store (temp p)))
  ∧ (type_of msg ≠ KGRound3PaillierProve →
       kgRound3PaillierProveMessage (store (temp p'))
       = kgRound3PaillierProveMessage (store (temp p)))
  ∧ (∀ j : nat,
       j ≠ Z.to_nat (Index (GetFrom msg)) →
       slot_of msg (store (temp p')) !! j = slot_of msg (store (temp p)) !! j).
Proof.
  intros Hstore.
  destruct msg; store_inv Hstore; simpl; split_and!; try done;
    intros j Hj; rewrite !list_lookup_fmap, list_lookup_insert_ne; done.
Qed.

(** C9.  With slot arrays of length [n]: a sender index in [[0, n)] keeps
    every index assignment of [StoreMessage] in bounds, so the call returns;
    a recognised message with a sender index outside [[0, n)] makes the
    index assignment panic. *)
Theorem StoreMessage_bounds p n :
  store_sized n (store (temp p)) →
  (∀ msg, 0 ≤ Index (GetFrom msg) < n → returns (StoreMessage p msg))
  ∧ (∀ msg, recognised msg = true → ¬ (0 ≤ Index (GetFrom msg) < n) →
       StoreMessage p msg = Panicked).
Proof.
  intros (H1 & H2 & H3 & H4). split.
  - intros msg Hidx. destruct msg; unfold StoreMessage; simpl in *;
      rewrite ?slice_set_in_range by lia; simpl; by eexists.
  - intros msg Hrec Hidx. destruct msg; try discriminate Hrec;
      unfold StoreMessage; simpl in *;
      rewrite slice_set_out_of_range by lia; done.
Qed.


End PartyProperties.

Section EngineProperties.
Context {rounds : Rounds}.

(** ** Start *)


(** ** Finish and the result channel *)

Lemma StoreMessage_with_store p msg p' ok err :
  StoreMessage p msg = Returned (p', ok, err) →
  ∃ s, p' = with_store p s.
Proof.
  intros Hstore. destruct msg; unfold StoreMessage in Hstore; simpl in Hstore;
    try (match type of Hstore with
         | context [slice_set ?a ?i ?v] => destruct (slice_set a i v)
         end; simpl in Hstore; [| discriminate Hstore]);
    inversion Hstore as [[Hp Hok Herr]]; try by eexists.
  exists (store (temp p)). rewrite <- Hp.
  destruct p as [b pa t d en]. by destruct t.
Qed.

Lemma delivered_with_store e p s :
  delivered e p → delivered e (with_store p s).
Proof. done. Qed.

Lemma Start_delivered e p : delivered e p → delivered e (Start p).1.
Proof.
  unfold Start, delivered.
  destruct (Round (base p)) as [| [r |] | | |] eqn:Hr; simpl; rewrite ?Hr; done.
Qed.

Lemma finalize_inr number next p p' :
  finalize number next p = inr p' →
  Round (base p') = next ∧ end_ p' = end_ p.
Proof.
  unfold finalize.
  destruct (round_finalize _ _ _ _) as [| [[t s] sent]]; [done |].
  intros [= <-]. done.
Qed.

Lemma advance_from_round3_delivered e p :
  Round (base p) = ptr_round3 → end_ p = e →
  delivered e (advance_from_round3 p).1.
Proof.
  intros Hr He. unfold advance_from_round3.
  destruct (CanProceed p); [| by simpl; unfold delivered; rewrite Hr].
  destruct (finalize 3 doneRound p) as [| p'] eqn:Hfin;
    [by simpl; unfold delivered; rewrite Hr |].
  apply finalize_inr in Hfin as [Hr' He'].
  unfold delivered, Finish. simpl. rewrite Hr'. congruence.
Qed.

Lemma advance_from_round2_delivered e p :
  Round (base p) = ptr_round2 → end_ p = e →
  delivered e (advance_from_round2 p).1.
Proof.
  intros Hr He. unfold advance_from_round2.
  destruct (CanProceed p); [| by simpl; unfold delivered; rewrite Hr].
  destruct (finalize 2 ptr_round3 p) as [| p'] eqn:Hfin;
    [by simpl; unfold delivered; rewrite Hr |].
  apply finalize_inr in Hfin as [Hr' He'].
  apply advance_from_round3_delivered; congruence.
Qed.

Lemma advance_from_round1_delivered e p r :
  Round (base p) = ptr_round1 r → end_ p = e →
  delivered e (advance_from_round1 p).1.
Proof.
  intros Hr He. unfold advance_from_round1.
  destruct (CanProceed p); [| by simpl; unfold delivered; rewrite Hr].
  destruct (finalize 1 ptr_round2 p) as [| p'] eqn:Hfin;
    [by simpl; unfold delivered; rewrite Hr |].
  apply finalize_inr in Hfin as [Hr' He'].
  apply advance_from_round2_delivered; congruence.
Qed.

Lemma advance_delivered e p : delivered e p → delivered e (advance p).1.
Proof.
  intros Hd. unfold advance.
  destruct (Round (base p)) as [| [r |] | | |] eqn:Hr; simpl; try done;
    unfold delivered in Hd; rewrite Hr in Hd.
  - by eapply advance_from_round1_delivered.
  - by apply advance_from_round2_delivered.
  - by apply advance_from_round3_delivered.
Qed.

Lemma call_delivered e p c p' err :
  call p c = Returned (p', err) → delivered e p → delivered e p'.
Proof.
  intros Hcall Hd. destruct c as [| msg phase]; simpl in Hcall.
  - inversion Hcall as [Hstart].
    pose proof (Start_delivered e p Hd) as Hd'. by rewrite Hstart in Hd'.
  - unfold Update in Hcall.
    destruct (StoreMessage p msg) as [[[p1 ok] err1] |] eqn:Hstore;
      [| discriminate Hcall].
    apply StoreMessage_with_store in Hstore as [s ->].
    apply (delivered_with_store e p s) in Hd.
    simpl in Hcall. destruct ok.
    + pose proof (advance_delivered e _ Hd) as Hadv.
      destruct (advance (with_store p s)) as [p2 err2].
      simpl in Hcall. inversion Hcall; subst. done.
    + simpl in Hcall. inversion Hcall; subst. done.
Qed.

Lemma run_delivered e cs : ∀ p p' err,
  run p cs = Returned (p', err) → delivered e p → delivered e p'.
Proof.
  induction cs as [| c cs IH]; intros p p' err Hrun Hd; simpl in Hrun.
  - inversion Hrun; subst. done.
  - destruct (call p c) as [[q [errq |]] |] eqn:Hcall; simpl in Hrun;
      try discriminate Hrun.
    + inversion Hrun; subst. by eapply call_delivered.
    + eapply IH; [done |]. by eapply call_delivered.
Qed.

(** C8.  [Finish] sends the party's save data on the result channel and
    does nothing else; and after a successful protocol run of a party made
    by [NewLocalParty], the result channel holds, after what it held at
    construction, exactly one value: the party's save data. *)
Theorem Finish_delivers_once pars out e p0 cs p' :
  NewLocalParty pars out e = Returned p0 →
  successful_run p0 cs p' →
  (∀ q, end_ (Finish q) = end_ q ++ [data q]
        ∧ base (Finish q) = base q ∧ params (Finish q) = params q
        ∧ temp (Finish q) = temp q ∧ data (Finish q) = data q)
  ∧ end_ p' = e ++ [data p'].
Proof.
  intros Hnew [Hrun Hdone]. split; [done |].
  assert (delivered e p0) as Hd0.
  { destruct (decide (0 ≤ PartyCount pars)) as [Hn | Hn].
    - rewrite NewLocalParty_returns in Hnew by done.
      inversion Hnew; subst. done.
    - by rewrite NewLocalParty_negative_count in Hnew by lia. }
  pose proof (run_delivered e cs p0 p' None Hrun Hd0) as Hd.
  unfold delivered in Hd. by rewrite Hdone in Hd.
Qed.

End EngineProperties.

(** * The properties on concrete inputs *)

Lemma fresh_party_constructed :
  NewLocalParty (rounds := plain_rounds) (params_of 0 3) [] []
  = Returned fresh_party.
Proof. reflexivity. Qed.

Lemma fresh_party_store_sized : store_sized 3 (store (temp fresh_party)).
Proof. repeat split. Defined.



(** C2: the share id is found at position 1, before its duplicate. *)
Lemma OriginalIndex_first_match_witness :
  OriginalIndex (save_with (Some 5) [Some 7; Some 5; Some 5])
  = Returned (1, None).
Proof.
  destruct (OriginalIndex_first_match
              (save_with (Some 5) [Some 7; Some 5; Some 5]) 5 [7; 5; 5]
              eq_refl eq_refl) as [[Hout _] | (j & Hj & Hfirst & Hret)].
  - destruct Hout. apply list_elem_of_further, list_elem_of_here.
  - destruct j as [| [| j]].
    + discriminate Hj.
    + exact Hret.
    + destruct (Hfirst 1%nat); [lia | reflexivity].
Defined.

(** C2 as stated fails: an entry of [Ks] equals [ShareID], yet the call
    does not return, because an earlier entry is nil. *)
Lemma OriginalIndex_nil_entry_panics :
  Ks (save_with (Some 5) [None; Some 5]) !! 1%nat
  = Some (ShareID (save_with (Some 5) [None; Some 5]))
  ∧ OriginalIndex (save_with (Some 5) [None; Some 5]) = Panicked.
Proof. split; reflexivity. Qed.




(** C5: the share of party 1 lands in slot 1 of the VSS array. *)
Lemma StoreMessage_stores_witness :
  ∃ p', StoreMessage fresh_party (vss_from 1 [21]) = Returned (p', true, None)
    ∧ kgRound2VssMessages (store (temp p'))
      = [None;
         Some {| r2v_meta := {| From := party 1; To := Some (party 0) |};
                 r2v_content := [21] |};
         None].
Proof.
  assert (0 ≤ Index (GetFrom (vss_from 1 [21])) < 3) as Hidx by (simpl; lia).
  destruct (StoreMessage_stores fresh_party (vss_from 1 [21]) 3
              eq_refl fresh_party_store_sized Hidx) as (p' & Hp' & _).
  exists p'. split; [exact Hp' |].
  inversion Hp'. reflexivity.
Defined.

(** C6: storing the commitment of party 2 leaves the rest alone. *)
Lemma StoreMessage_frame_witness :
  ∃ p', StoreMessage fresh_party (commit_from 2 [9]) = Returned (p', true, None)
    ∧ data p' = data fresh_party
    ∧ KGCs (temp p') = KGCs (temp fresh_party)
    ∧ kgRound2VssMessages (store (temp p'))
      = kgRound2VssMessages (store (temp fresh_party))
    ∧ kgRound1CommitMessages (store (temp p')) !! 1%nat = Some None.
Proof.
  eexists. split; [reflexivity |].
  match goal with
  | |- data ?q = _ ∧ _ =>
      destruct (StoreMessage_frame fresh_party (commit_from 2 [9]) q true None
                  eq_refl)
        as (Hdata & Hkgcs & _ & _ & _ & _ & _ & _ & _ & _ & Hvss & _ & _ & Hpos)
  end.
  split_and!.
  - exact Hdata.
  - exact Hkgcs.
  - apply Hvss. discriminate.
  - reflexivity.
Defined.

(** C7: three distinct share ids; the party holding the second is party 1. *)
Lemma OriginalIndex_own_index_witness :
  OriginalIndex (save_with (Some 5) [Some 7; Some 5; Some 9])
  = Returned (1, None).
Proof.
  apply (OriginalIndex_own_index
           (save_with (Some 5) [Some 7; Some 5; Some 9]) [7; 5; 9] 1 5).
  - reflexivity.
  - repeat constructor; rewrite ?elem_of_cons, ?elem_of_nil; lia.
  - reflexivity.
  - reflexivity.
Defined.

(** C8: party 0 of two completes the three rounds. *)
Lemma Finish_delivers_once_witness :
  successful_run fresh_party_of_two two_party_calls
                 (party_after fresh_party_of_two two_party_calls)
  ∧ end_ (party_after fresh_party_of_two two_party_calls)
    = [data (party_after fresh_party_of_two two_party_calls)].
Proof.
  assert (NewLocalParty (rounds := plain_rounds) (params_of 0 2) [] []
          = Returned fresh_party_of_two) as Hnew by (vm_compute; reflexivity).
  assert (successful_run fresh_party_of_two two_party_calls
            (party_after fresh_party_of_two two_party_calls)) as Hrun
    by (split; vm_compute; reflexivity).
  split; [exact Hrun |].
  destruct (Finish_delivers_once _ _ _ _ _ _ Hnew Hrun) as [_ Hend].
  exact Hend.
Defined.

(** C9: index 2 is in bounds for a party of three, 3 and -1 are not. *)
Lemma StoreMessage_bounds_witness :
  returns (StoreMessage fresh_party (commit_from 2 []))
  ∧ StoreMessage fresh_party (proof_from 3 []) = Panicked
  ∧ StoreMessage fresh_party (vss_from (-1) []) = Panicked.
Proof.
  destruct (StoreMessage_bounds fresh_party 3 fresh_party_store_sized)
    as [Hin Hout].
  split_and!.
  - apply Hin. simpl. lia.
  - apply Hout; [reflexivity | simpl; lia].
  - apply Hout; [reflexivity | simpl; lia].
Defined.


(** * Further properties of local_party.go *)

(** ** OriginalIndex on arbitrary save data, nil pointers included *)

Lemma Cmp_Returned (x y : option Z) (c : Z) :
  Cmp x y = Returned c → (c = 0 ↔ x = y).
Proof.
  destruct x as [a |], y as [b |]; unfold Cmp; intros Hc;
    inversion Hc as [Hc']; clear Hc.
  - destruct (Z.compare_spec a b); split; intros Heq;
      try done; try (inversion Heq; lia). by subst.
  - done.
Qed.

Lemma Cmp_Panicked (x y : option Z) :
  Cmp x y = Panicked ↔ (is_Some x ↔ y = None).
Proof.
  destruct x as [a |], y as [b |]; unfold Cmp; split; try done.
  - intros [H _]. discriminate (H (mk_is_Some _ _ eq_refl)).
  - intros [_ H]. by destruct (is_Some_None (H eq_refl)).
Qed.

Lemma scan_Ks_cons (ki kj : option Z) (rest : list (option Z)) (j : Z) :
  scan_Ks ki (kj :: rest) j =
  match Cmp kj ki with
  | Returned c => if negb (c =? 0) then scan_Ks ki rest (j + 1) else Returned j
  | Panicked => Panicked
  end.
Proof. done. Qed.

Lemma scan_Ks_Returned (ki : option Z) (ks : list (option Z)) (j0 r : Z) :
  scan_Ks ki ks j0 = Returned r →
  (r = -1 ∧ ki ∉ ks)
  ∨ (∃ n : nat,
       r = j0 + Z.of_nat n ∧ ks !! n = Some ki
       ∧ ∀ i : nat, (i < n)%nat → ks !! i ≠ Some ki).
Proof.
  revert j0. induction ks as [| kj rest IH]; intros j0 Hscan.
  - left. inversion Hscan. split; [done | apply not_elem_of_nil].
  - rewrite scan_Ks_cons in Hscan.
    destruct (Cmp kj ki) as [c |] eqn:Hcmp; [| done].
    apply Cmp_Returned in Hcmp.
    destruct (c =? 0) eqn:Hc; simpl in Hscan.
    + apply Z.eqb_eq in Hc. apply Hcmp in Hc as ->.
      right. exists 0%nat. inversion Hscan.
      split_and!; [lia | done | intros i Hi; lia].
    + apply Z.eqb_neq in Hc.
      assert (kj ≠ ki) as Hne by (intros Heq; by apply Hc, Hcmp).
      destruct (IH _ Hscan) as [[-> Hout] | (n & -> & Hn & Hfirst)].
      * left. split; [done |]. by apply not_elem_of_cons.
      * right. exists (S n). split_and!; [lia | done |].
        intros [| i] Hi; simpl; [congruence | apply Hfirst; lia].
Qed.

Lemma scan_Ks_Panicked (ki : option Z) (ks : list (option Z)) (j0 : Z) :
  scan_Ks ki ks j0 = Panicked ↔
  ∃ (j : nat) (kj : option Z),
    ks !! j = Some kj
    ∧ (is_Some kj ↔ ki = None)
    ∧ ∀ i : nat, (i < j)%nat → ks !! i ≠ Some ki.
Proof.
  revert j0. induction ks as [| kj rest IH]; intros j0.
  - split; [done |]. by intros (j & x & Hj & _).
  - rewrite scan_Ks_cons.
    destruct (Cmp kj ki) as [c |] eqn:Hcmp.
    + pose proof (Cmp_Returned _ _ _ Hcmp) as Heq.
      assert (¬ (is_Some kj ↔ ki = None)) as Hsame.
      { intros Hmis. apply Cmp_Panicked in Hmis. congruence. }
      destruct (c =? 0) eqn:Hc; simpl.
      * apply Z.eqb_eq in Hc. apply Heq in Hc as ->.
        split; [done |]. intros ([| j] & x & Hj & Hmis & Hfirst).
        -- simpl in Hj. inversion Hj; subst. by destruct Hsame.
        -- destruct (Hfirst 0%nat); [lia | done].
      * apply Z.eqb_neq in Hc. rewrite IH. split.
        -- intros (j & x & Hj & Hmis & Hfirst).
           exists (S j), x. split_and!; [done | done |].
           intros [| i] Hi; simpl; [| apply Hfirst; lia].
           intros [= ->]. by apply Hc, Heq.
        -- intros ([| j] & x & Hj & Hmis & Hfirst).
           ++ simpl in Hj. inversion Hj; subst. by destruct Hsame.
           ++ exists j, x. split_and!; [done | done |].
              intros i Hi. apply (Hfirst (S i)). lia.
    + split; [| done]. intros _. exists 0%nat, kj.
      split_and!; [done | by apply Cmp_Panicked | intros i Hi; lia].
Qed.

(** X1.  [OriginalIndex] panics exactly when [Ks] has, before any entry
    equal to [ShareID], an entry that is nil while [ShareID] is not, or
    non-nil while [ShareID] is nil. *)
Theorem OriginalIndex_panics_iff (save : LocalPartySaveData) :
  OriginalIndex save = Panicked ↔
  ∃ (j : nat) (kj : option Z),
    Ks save !! j = Some kj
    ∧ (is_Some kj ↔ ShareID save = None)
    ∧ ∀ i : nat, (i < j)%nat → Ks save !! i ≠ Some (ShareID save).
Proof.
  rewrite <- (scan_Ks_Panicked (ShareID save) (Ks save) 0).
  unfold OriginalIndex.
  destruct (scan_Ks (ShareID save) (Ks save) 0) as [r |]; simpl; [| done].
  by destruct (r <? 0).
Qed.

(** X2.  Whenever [OriginalIndex] returns, either the error is nil and the
    index is a position of [Ks], the first one whose entry equals [ShareID]
    (two nil pointers count as equal), or the index is -1, the error is the
    index-recovery error and no entry of [Ks] equals [ShareID]. *)
Theorem OriginalIndex_result (save : LocalPartySaveData) (j : Z)
    (err : option error) :
  OriginalIndex save = Returned (j, err) →
  (err = None
   ∧ 0 ≤ j < len (Ks save)
   ∧ Ks save !! Z.to_nat j = Some (ShareID save)
   ∧ ∀ i : nat, (i < Z.to_nat j)%nat → Ks save !! i ≠ Some (ShareID save))
  ∨ (err = Some index_not_recovered ∧ j = -1 ∧ ShareID save ∉ Ks save).
Proof.
  unfold OriginalIndex. intros Hret.
  destruct (scan_Ks (ShareID save) (Ks save) 0) as [r |] eqn:Hscan;
    simpl in Hret; [| done].
  apply scan_Ks_Returned in Hscan
    as [[-> Hout] | (n & -> & Hn & Hfirst)].
  - right. by inversion Hret.
  - left. assert ((0 + Z.of_nat n <? 0) = false) as Hpos
      by (apply Z.ltb_ge; lia).
    rewrite Hpos in Hret. inversion Hret; subst.
    replace (Z.to_nat (0 + Z.of_nat n)) with n by lia.
    split_and!; try done; try lia.
    apply lookup_lt_Some in Hn. unfold len. lia.
Qed.

Section MethodProperties.
Context {rounds : Rounds}.

(** ** NewLocalParty *)


Lemma Forall_replicate_None {T : Type} (n : nat) :
  Forall (λ x : option T, x = None) (replicate n None).
Proof. induction n; simpl; by constructor. Qed.

(** X4.  A party returned by [NewLocalParty] holds no message and no key
    material: every slot of the four message arrays, of [KGCs] and of the
    five allocated save-data arrays is nil, and the scalar save-data fields
    are nil.  Nothing was sent on either channel, the party keeps the
    parameters it was given and is at round 1. *)
Theorem NewLocalParty_fresh pars out e p :
  NewLocalParty pars out e = Returned p →
  Forall (λ x, x = None) (kgRound1CommitMessages (store (temp p)))
  ∧ Forall (λ x, x = None) (kgRound2VssMessages (store (temp p)))
  ∧ Forall (λ x, x = None) (kgRound2DeCommitMessages (store (temp p)))
  ∧ Forall (λ x, x = None) (kgRound3PaillierProveMessage (store (temp p)))
  ∧ Forall (λ x, x = None) (KGCs (temp p))
  ∧ Forall (λ x, x = None) (BigXj (data p))
  ∧ Forall (λ x, x = None) (PaillierPks (data p))
  ∧ Forall (λ x, x = None) (NTildej (data p))
  ∧ Forall (λ x, x = None) (H1j (data p))
  ∧ Forall (λ x, x = None) (H2j (data p))
  ∧ Xi (data p) = None ∧ ShareID (data p) = None
  ∧ PaillierSk (data p) = None ∧ ECDSAPub (data p) = None
  ∧ Out (base p) = out ∧ end_ p = e
  ∧ params p = pars
  ∧ Round (base p) = ptr_round1 (Some (newRound1 pars)).
Proof.
  intros Hnew. destruct (decide (0 ≤ PartyCount pars)) as [Hn | Hn].
  - rewrite NewLocalParty_returns in Hnew by done.
    inversion Hnew; subst p; clear Hnew. simpl.
    split_and!; try done; apply Forall_replicate_None.
  - by rewrite NewLocalParty_negative_count in Hnew by lia.
Qed.

(** ** StoreMessage *)

(** X5.  [StoreMessage] never returns an error: when it returns, the error
    is nil and the boolean tells whether the message's type is one of the
    four recognised ones. *)
Theorem StoreMessage_never_errors p msg p' ok err :
  StoreMessage p msg = Returned (p', ok, err) →
  err = None ∧ ok = recognised msg.
Proof.
  intros Hstore. destruct msg; unfold StoreMessage in Hstore; simpl in Hstore;
    try (match type of Hstore with
         | context [slice_set ?a ?i ?v] => destruct (slice_set a i v)
         end; simpl in Hstore; [| discriminate Hstore]);
    by inversion Hstore.
Qed.

Lemma store_all_cons p msg msgs :
  store_all p (msg :: msgs) =
  match StoreMessage p msg with
  | Returned r => store_all r.1.1 msgs
  | Panicked => Panicked
  end.
Proof.
  unfold store_all. simpl. by destruct (StoreMessage p msg).
Qed.

(** What every returning [StoreMessage] keeps, every returning sequence of
    them keeps. *)
Lemma store_all_keeps (P : LocalParty → Prop) :
  (∀ p msg p' ok err,
     StoreMessage p msg = Returned (p', ok, err) → P p → P p') →
  ∀ msgs p p', store_all p msgs = Returned p' → P p → P p'.
Proof.
  intros Hstep. induction msgs as [| msg msgs IH]; intros p p' Hall HP.
  - by inversion Hall; subst.
  - rewrite store_all_cons in Hall.
    destruct (StoreMessage p msg) as [[[p1 ok] err] |] eqn:Hstore; [| done].
    eapply IH; [done |]. by eapply Hstep.
Qed.



Lemma StoreMessage_keeps_filled p msg p' ok err t j :
  StoreMessage p msg = Returned (p', ok, err) →
  slot_filled t (store (temp p)) j → slot_filled t (store (temp p')) j.
Proof.
  intros Hstore Hfilled.
  destruct msg; unfold StoreMessage in Hstore; simpl in Hstore;
    try (match type of Hstore with
         | context [slice_set ?a ?i ?v] =>
             let Hset := fresh "Hset" in
             destruct (slice_set a i v) eqn:Hset; simpl in Hstore;
             [apply slice_set_Returned in Hset as [Hidx ->]
             | discriminate Hstore]
         end);
    inversion Hstore; subst; clear Hstore; try done;
    destruct t; simpl in *; try done;
    destruct Hfilled as [m0 Hm0];
    match goal with
    | |- ∃ _, <[?i := _]> _ !! _ = _ =>
        destruct (decide (i = j)) as [-> |];
        [ eexists; apply list_lookup_insert_eq; by eapply lookup_lt_Some
        | exists m0; by rewrite list_lookup_insert_ne ]
    end.
Qed.

(** X7.  Slots are never cleared: a slot that holds a message still holds
    one after any sequence of [StoreMessage] calls. *)
Theorem store_all_keeps_filled p msgs p' t j :
  store_all p msgs = Returned p' →
  slot_filled t (store (temp p)) j → slot_filled t (store (temp p')) j.
Proof.
  intros Hall. revert msgs p p' Hall.
  apply (store_all_keeps (λ q, slot_filled t (store (temp q)) j)).
  intros p msg p' ok err Hstore. by eapply StoreMessage_keeps_filled.
Qed.

Lemma StoreMessage_filled_iff p msg p' ok err t j :
  StoreMessage p msg = Returned (p', ok, err) →
  slot_filled t (store (temp p')) j ↔
  slot_filled t (store (temp p)) j
  ∨ (recognised msg = true ∧ type_of msg = t
     ∧ Index (GetFrom msg) = Z.of_nat j).
Proof.
  intros Hstore. split.
  - intros Hfilled.
    destruct msg; unfold StoreMessage in Hstore; simpl in Hstore;
      try (match type of Hstore with
           | context [slice_set ?a ?i ?v] =>
               let Hset := fresh "Hset" in
               destruct (slice_set a i v) eqn:Hset; simpl in Hstore;
               [apply slice_set_Returned in Hset as [Hidx ->]
               | discriminate Hstore]
           end);
      inversion Hstore; subst; clear Hstore; try (by left);
      destruct t; simpl in *; try (by left);
      destruct Hfilled as [m0 Hm0];
      match type of Hm0 with
      | <[?i := _]> _ !! _ = _ =>
          destruct (decide (i = j)) as [Heq |];
          [ right; split_and!; [done | done | lia]
          | left; exists m0; by rewrite list_lookup_insert_ne in Hm0 ]
      end.
  - intros [Hfilled | (Hrec & <- & Hidx)];
      [by eapply StoreMessage_keeps_filled |].
    destruct msg; try discriminate Hrec;
      unfold StoreMessage in Hstore; simpl in Hstore;
      match type of Hstore with
      | context [slice_set ?a ?i ?v] =>
          let Hset := fresh "Hset" in
          destruct (slice_set a i v) eqn:Hset; simpl in Hstore;
          [apply slice_set_Returned in Hset as [Hin ->]
          | discriminate Hstore]
      end;
      inversion Hstore; subst; clear Hstore; simpl in *;
      eexists; rewrite Hidx, Nat2Z.id;
      apply list_lookup_insert_eq; unfold len in *; lia.
Qed.

(** X16.  The filled slots tell exactly whose messages arrived: after a
    party made by [NewLocalParty] stored a sequence of messages, slot [j] of
    the array for type [t] holds a message exactly when the sequence has a
    message of the recognised type [t] with sender index [j]. *)
Theorem filled_slots_are_senders pars out e p msgs p' t (j : nat) :
  NewLocalParty pars out e = Returned p →
  store_all p msgs = Returned p' →
  slot_filled t (store (temp p')) j ↔
  ∃ msg, msg ∈ msgs ∧ recognised msg = true ∧ type_of msg = t
         ∧ Index (GetFrom msg) = Z.of_nat j.
Proof.
  intros Hnew Hall.
  assert (¬ slot_filled t (store (temp p)) j) as Hempty.
  { destruct (decide (0 ≤ PartyCount pars)) as [Hn | Hn].
    - rewrite NewLocalParty_returns in Hnew by done.
      inversion Hnew; subst p; clear Hnew.
      destruct t; simpl; intros Hf; try done; destruct Hf as [m Hm];
        apply lookup_replicate in Hm as [Hm _]; discriminate Hm.
    - by rewrite NewLocalParty_negative_count in Hnew by lia. }
  clear Hnew.
  assert (slot_filled t (store (temp p')) j ↔
          slot_filled t (store (temp p)) j
          ∨ ∃ msg, msg ∈ msgs ∧ recognised msg = true ∧ type_of msg = t
                   ∧ Index (GetFrom msg) = Z.of_nat j) as Hiff.
  { clear Hempty. revert p Hall.
    induction msgs as [| msg msgs IH]; intros p Hall.
    - inversion Hall; subst. split; [by left |].
      intros [Hf | (m & Hin & _)]; [done | by apply elem_of_nil in Hin].
    - rewrite store_all_cons in Hall.
      destruct (StoreMessage p msg) as [[[p1 ok] err] |] eqn:Hstore; [| done].
      rewrite (IH p1 Hall), (StoreMessage_filled_iff p msg p1 ok err t j Hstore).
      split.
      + intros [[Hf | Hhere] | (m & Hin & Hm)].
        * by left.
        * right. exists msg. split; [by left | done].
        * right. exists m. split; [by right | done].
      + intros [Hf | (m & Hin & Hm)]; [by left; left |].
        apply elem_of_cons in Hin as [-> | Hin].
        * left. by right.
        * right. by exists m. }
  rewrite Hiff. split; [by intros [Hf | Hex] | by right].
Qed.

Lemma slice_set_twice {T : Type} (a : list (option T)) (i j : Z) (v w : T) :
  i ≠ j →
  (slice_set a i v ≫= λ a1, slice_set a1 j w)
  = (slice_set a j w ≫= λ a1, slice_set a1 i v).
Proof.
  intros Hne.
  destruct (decide (0 ≤ i < len a)) as [Hi | Hi];
    destruct (decide (0 ≤ j < len a)) as [Hj | Hj];
    rewrite ?(slice_set_in_range a i) by done;
    rewrite ?(slice_set_in_range a j) by done;
    rewrite ?(slice_set_out_of_range a i) by done;
    rewrite ?(slice_set_out_of_range a j) by done; simpl;
    rewrite ?slice_set_in_range by (by rewrite len_insert);
    rewrite ?slice_set_out_of_range by (by rewrite len_insert);
    try done.
  f_equal. apply list_insert_insert_ne. lia.
Qed.

(** Case analysis on the results of the index assignments in the goal,
    keeping each result for the later occurrences of the same assignment. *)
Ltac split_slice_sets :=
  repeat match goal with
         | H : slice_set ?l ?i ?v = _ |- context [slice_set ?l ?i ?v] =>
             rewrite H; simpl
         | |- context [slice_set ?l ?i ?v] =>
             let E := fresh "E" in
             destruct (slice_set l i v) eqn:E; simpl
         end.

(** X8.  Messages that go to different slots can be stored in either
    order: the party, or the panic, is the same. *)
Theorem StoreMessage_commute p m1 m2 :
  different_slot m1 m2 →
  store_all p [m1; m2] = store_all p [m2; m1].
Proof.
  intros Hdiff. rewrite !store_all_cons.
  destruct m1 as [a | a | a | a | ? ?], m2 as [b | b | b | b | ? ?];
    unfold StoreMessage, store_all; simpl;
    try (destruct Hdiff as [Hty | Hidx]; [by destruct Hty |];
         simpl in Hidx;
         match goal with
         | |- context [slice_set ?l ?i a] =>
             pose proof (slice_set_twice l _ _ a b Hidx) as Htwice;
             destruct (slice_set l i a) as [l1 |];
             destruct (slice_set l _ b) as [l2 |];
             simpl in *; rewrite ?Htwice; try done;
             try (by destruct (slice_set l2 _ a));
             by rewrite <- ?Htwice
         end);
    split_slice_sets; done.
Qed.

Lemma StoreMessage_other_slot p m' p' ok err m :
  StoreMessage p m' = Returned (p', ok, err) →
  different_slot m m' →
  0 ≤ Index (GetFrom m) →
  slot_of m (store (temp p')) !! Z.to_nat (Index (GetFrom m))
  = slot_of m (store (temp p)) !! Z.to_nat (Index (GetFrom m)).
Proof.
  intros Hstore Hdiff Hpos.
  destruct m' as [b | b | b | b | ? ?];
    unfold StoreMessage in Hstore; simpl in Hstore;
    try (match type of Hstore with
         | context [slice_set ?a ?i ?v] =>
             let Hset := fresh "Hset" in
             destruct (slice_set a i v) eqn:Hset; simpl in Hstore;
             [apply slice_set_Returned in Hset as [Hidx ->]
             | discriminate Hstore]
         end);
    inversion Hstore; subst; clear Hstore; try done;
    destruct m as [a | a | a | a | ? ?]; simpl in *; try done;
    (destruct Hdiff as [Hty | Hne]; [by destruct Hty |]);
    simpl in Hne; rewrite !list_lookup_fmap, list_lookup_insert_ne by lia; done.
Qed.

(** X9.  A stored message stays in its slot: after a recognised message
    was stored, it is still found in the slot array of its type at its
    sender's index after any sequence of stored messages none of which has
    both its type and its sender index. *)
Theorem stored_message_stays p m p1 ok err msgs p2 :
  recognised m = true →
  StoreMessage p m = Returned (p1, ok, err) →
  Forall (different_slot m) msgs →
  store_all p1 msgs = Returned p2 →
  slot_of m (store (temp p2)) !! Z.to_nat (Index (GetFrom m)) = Some (Some m).
Proof.
  intros Hrec Hstore Hmsgs Hall.
  assert (0 ≤ Index (GetFrom m)
          ∧ slot_of m (store (temp p1)) !! Z.to_nat (Index (GetFrom m))
            = Some (Some m)) as [Hpos Hslot].
  { destruct m as [a | a | a | a | ? ?]; try discriminate Hrec;
      unfold StoreMessage in Hstore; simpl in Hstore;
      match type of Hstore with
      | context [slice_set ?l ?i ?v] =>
          let Hset := fresh "Hset" in
          destruct (slice_set l i v) eqn:Hset; simpl in Hstore;
          [apply slice_set_Returned in Hset as [Hidx ->]
          | discriminate Hstore]
      end;
      inversion Hstore; subst; clear Hstore; simpl;
      (split; [lia |]);
      rewrite list_lookup_fmap, list_lookup_insert_eq; try done;
      unfold len in *; lia. }
  clear Hstore. revert p1 Hall Hslot.
  induction Hmsgs as [| m' msgs Hdiff _ IH]; intros p1 Hall Hslot.
  - by inversion Hall; subst.
  - rewrite store_all_cons in Hall.
    destruct (StoreMessage p1 m') as [[[q ok'] err'] |] eqn:Hstore; [| done].
    apply (IH q Hall).
    by rewrite (StoreMessage_other_slot p1 m' q ok' err' m).
Qed.

(** What a sequence of stored messages leaves alone. *)
Lemma store_all_outside_store p msgs p' :
  store_all p msgs = Returned p' →
  base p' = base p ∧ params p' = params p ∧ data p' = data p
  ∧ end_ p' = end_ p.
Proof.
  intros Hall.
  apply (store_all_keeps
           (λ q, base q = base p ∧ params q = params p ∧ data q = data p
                 ∧ end_ q = end_ p)) with (msgs := msgs) (p := p);
    [| done | done].
  intros q msg q' ok err Hstore Hq.
  by apply StoreMessage_with_store in Hstore as [s ->].
Qed.

(** ** Start *)

(** X10.  Messages that arrive early do not keep a party from starting:
    after [NewLocalParty] and any sequence of stored messages, [Start]
    passes its test and calls the [Start] of the round built at
    construction, returns that call's error and sends that call's messages
    after what the outbound channel held at construction. *)
Theorem Start_after_early_messages pars out e p msgs p' :
  NewLocalParty pars out e = Returned p →
  store_all p msgs = Returned p' →
  let eff := round1_Start (newRound1 pars) (temp p') (data p') in
  (Start p').2 = eff_err eff
  ∧ Out (base (Start p').1) = out ++ eff_sent eff
  ∧ data p' = data p.
Proof.
  intros Hnew Hall.
  apply store_all_outside_store in Hall as (Hbase & _ & Hdata & _).
  assert (base p = {| Out := out;
                      Round := ptr_round1 (Some (newRound1 pars)) |})
    as Hfresh.
  { destruct (decide (0 ≤ PartyCount pars)) as [Hn | Hn].
    - rewrite NewLocalParty_returns in Hnew by done. by inversion Hnew.
    - by rewrite NewLocalParty_negative_count in Hnew by lia. }
  unfold Start. rewrite Hbase, Hfresh. done.
Qed.

(** ** OriginalIndex before the rounds have run *)

(** X11.  On the save data of a party that was constructed and has only
    stored messages, [OriginalIndex] does not panic: it returns -1 and the
    index-recovery error. *)
Theorem OriginalIndex_before_rounds pars out e p msgs p' :
  NewLocalParty pars out e = Returned p →
  store_all p msgs = Returned p' →
  OriginalIndex (data p') = Returned (-1, Some index_not_recovered).
Proof.
  intros Hnew Hall.
  apply store_all_outside_store in Hall as (_ & _ & -> & _).
  destruct (decide (0 ≤ PartyCount pars)) as [Hn | Hn].
  - rewrite NewLocalParty_returns in Hnew by done. by inversion Hnew.
  - by rewrite NewLocalParty_negative_count in Hnew by lia.
Qed.

(** ** Finish *)

(** X12.  [Finish] is not guarded: each call sends the save data again.
    After [k] calls the result channel holds [k] more copies of the save
    data, and nothing else of the party has changed. *)
Theorem Finish_repeated p (k : nat) :
  end_ (Nat.iter k Finish p) = end_ p ++ replicate k (data p)
  ∧ data (Nat.iter k Finish p) = data p
  ∧ temp (Nat.iter k Finish p) = temp p
  ∧ base (Nat.iter k Finish p) = base p
  ∧ params (Nat.iter k Finish p) = params p.
Proof.
  induction k as [| k (Hend & Hdata & Htemp & Hbase & Hparams)]; simpl.
  - by rewrite app_nil_r.
  - rewrite Hend, Hdata. split_and!; try done.
    rewrite <- app_assoc. f_equal.
    change (data p :: replicate k (data p)) with (replicate (S k) (data p)).
    by rewrite <- replicate_S_end.
Qed.

(** ** Sequences of calls *)

Lemma invoke_all_keeps (P : LocalParty → Prop) :
  (∀ p m p', invoke p m = Returned p' → P p → P p') →
  ∀ ms p p', invoke_all p ms = Returned p' → P p → P p'.
Proof.
  intros Hstep. induction ms as [| m ms IH]; intros p p' Hall HP; simpl in Hall.
  - by inversion Hall; subst.
  - destruct (invoke p m) as [p1 |] eqn:Hinv; [| done].
    eapply IH; [done |]. by eapply Hstep.
Qed.

Lemma invoke_cases p m p' :
  invoke p m = Returned p' →
  match m with
  | methodStart => p' = (Start p).1
  | methodStoreMessage msg => ∃ s, p' = with_store p s
  | methodFinish => p' = Finish p
  end.
Proof.
  destruct m as [| msg |]; simpl; intros Hinv.
  - by inversion Hinv.
  - destruct (StoreMessage p msg) as [[[q ok] err] |] eqn:Hstore; [| done].
    simpl in Hinv. inversion Hinv; subst.
    by eapply StoreMessage_with_store.
  - by inversion Hinv.
Qed.

Lemma Start_outside_round p :
  params (Start p).1 = params p ∧ end_ (Start p).1 = end_ p.
Proof.
  unfold Start. by destruct (Round (base p)) as [| [r |] | | |].
Qed.

(** X13.  The result channel receives one value per [Finish] call and
    nothing from [Start] or [StoreMessage]: after any sequence of calls,
    what it held before is still its prefix, and it has grown by the number
    of [Finish] calls. *)
Theorem result_channel_counts_Finish p ms p' :
  invoke_all p ms = Returned p' →
  end_ p `prefix_of` end_ p'
  ∧ length (end_ p') = (length (end_ p) + count_Finish ms)%nat.
Proof.
  revert p. induction ms as [| m ms IH]; intros p Hall; simpl in Hall.
  - inversion Hall; subst. split; [done | simpl; lia].
  - destruct (invoke p m) as [p1 |] eqn:Hinv; [| done]. simpl in Hall.
    destruct (IH p1 Hall) as [Hpre Hlen].
    apply invoke_cases in Hinv.
    destruct m as [| msg |]; simpl.
    + subst p1. destruct (Start_outside_round p) as [_ Hend].
      by rewrite Hend in Hpre, Hlen.
    + destruct Hinv as [s ->]. done.
    + subst p1. simpl in Hpre, Hlen. split.
      * etrans; [| exact Hpre]. by apply prefix_app_r.
      * rewrite Hlen, length_app. simpl. lia.
Qed.

(** X14.  The identity of a party never changes: after any sequence of
    [Start], [StoreMessage] and [Finish] calls on a party made by
    [NewLocalParty], [PartyID] still returns the identity of the parameters
    given at construction. *)
Theorem PartyID_stable pars out e p ms p' :
  NewLocalParty pars out e = Returned p →
  invoke_all p ms = Returned p' →
  LocalParty_PartyID p' = partyID pars.
Proof.
  intros Hnew Hall.
  assert (params p = pars) as Hpars.
  { destruct (decide (0 ≤ PartyCount pars)) as [Hn | Hn].
    - rewrite NewLocalParty_returns in Hnew by done. by inversion Hnew.
    - by rewrite NewLocalParty_negative_count in Hnew by lia. }
  unfold LocalParty_PartyID. rewrite <- Hpars. f_equal.
  apply (invoke_all_keeps (λ q, params q = params p))
    with (ms := ms) (p := p); [| done | done].
  intros q m q' Hinv Hq. apply invoke_cases in Hinv.
  destruct m as [| msg |].
  - subst q'. by rewrite (proj1 (Start_outside_round q)).
  - by destruct Hinv as [s ->].
  - by subst q'.
Qed.


End MethodProperties.

(** * The further properties on concrete inputs *)

Lemma fresh_party_of_three :
  NewLocalParty (rounds := plain_rounds) (params_of 0 3) [] []
  = Returned fresh_party.
Proof. vm_compute. reflexivity. Defined.

Lemma early_messages_stored :
  store_all fresh_party early_messages = Returned party_with_early_messages.
Proof. vm_compute. reflexivity. Defined.

Lemma mixed_calls_made :
  invoke_all fresh_party mixed_calls = Returned party_after_mixed_calls.
Proof. vm_compute. reflexivity. Defined.

(** X1: a nil entry before the share id. *)
Lemma OriginalIndex_panics_iff_witness :
  OriginalIndex (save_with (Some 5) [Some 7; None; Some 5]) = Panicked.
Proof.
  apply OriginalIndex_panics_iff. exists 1%nat, None. split_and!.
  - reflexivity.
  - split; [intros [x Hx]; discriminate Hx | intros Hnil; discriminate Hnil].
  - intros [| i] Hi; [simpl; discriminate | lia].
Defined.

(** X2: a nil share id is found at the first nil entry. *)
Lemma OriginalIndex_result_witness :
  0 ≤ 0 < len (Ks (save_with None [None; None]))
  ∧ Ks (save_with None [None; None]) !! 0%nat = Some None.
Proof.
  destruct (OriginalIndex_result (save_with None [None; None]) 0 None eq_refl)
    as [(_ & Hbounds & Hentry & _) | (Herr & _)].
  - split; [exact Hbounds | exact Hentry].
  - discriminate Herr.
Defined.


(** X4: party 0 of three, as constructed. *)
Lemma NewLocalParty_fresh_witness :
  Forall (λ x, x = None) (kgRound1CommitMessages (store (temp fresh_party)))
  ∧ Out (base fresh_party) = []
  ∧ end_ fresh_party = [].
Proof.
  destruct (NewLocalParty_fresh _ _ _ _ fresh_party_of_three)
    as (H1 & _ & _ & _ & _ & _ & _ & _ & _ & _ & _ & _ & _ & _ & Hout & Hend & _).
  split_and!; assumption.
Defined.

(** X5: a stored message and an ignored one. *)
Lemma StoreMessage_never_errors_witness :
  ∃ p', StoreMessage fresh_party (decommit_from 1 [22])
        = Returned (p', recognised (decommit_from 1 [22]), None).
Proof.
  assert (∃ p' ok err, StoreMessage fresh_party (decommit_from 1 [22])
                       = Returned (p', ok, err)) as (p' & ok & err & Hstore)
    by (vm_compute; by do 3 eexists).
  destruct (StoreMessage_never_errors _ _ _ _ _ Hstore) as [-> ->].
  by exists p'.
Defined.


(** X7: the commitment of party 1 is still there after more messages. *)
Lemma store_all_keeps_filled_witness :
  slot_filled KGRound1Commit
    (store (temp (returned_party
       (store_all party_with_early_messages [commit_from 2 [13]])))) 1.
Proof.
  apply (store_all_keeps_filled party_with_early_messages
           [commit_from 2 [13]]).
  - vm_compute. reflexivity.
  - vm_compute. by eexists.
Defined.

(** X8: a commitment and a share, and two commitments of different
    senders. *)
Lemma StoreMessage_commute_witness :
  store_all fresh_party [commit_from 1 [12]; vss_from 1 [21]]
  = store_all fresh_party [vss_from 1 [21]; commit_from 1 [12]]
  ∧ store_all fresh_party [commit_from 1 [12]; commit_from 2 [13]]
    = store_all fresh_party [commit_from 2 [13]; commit_from 1 [12]].
Proof.
  split; apply StoreMessage_commute.
  - left. discriminate.
  - right. simpl. lia.
Defined.

(** X9: the commitment of party 1 stays while others arrive. *)
Lemma stored_message_stays_witness :
  slot_of (commit_from 1 [12]) (store (temp party_with_early_messages))
    !! 1%nat
  = Some (Some (commit_from 1 [12])).
Proof.
  assert (∃ p1, StoreMessage fresh_party (commit_from 1 [12])
                = Returned (p1, true, None)
              ∧ store_all p1 [vss_from 2 [21]; unknown_from 9;
                              commit_from 0 [11]]
                = Returned party_with_early_messages) as (p1 & Hstore & Hall)
    by (eexists; split; vm_compute; reflexivity).
  assert (Forall (different_slot (commit_from 1 [12]))
            [vss_from 2 [21]; unknown_from 9; commit_from 0 [11]]) as Hdiff.
  { apply Forall_cons_2; [left; discriminate |].
    apply Forall_cons_2; [left; discriminate |].
    apply Forall_cons_2; [right; simpl; lia |].
    apply Forall_nil_2. }
  exact (stored_message_stays fresh_party (commit_from 1 [12]) p1 true
           None _ _ eq_refl Hstore Hdiff Hall).
Defined.

(** X10: party 0 of three starts after the early messages. *)
Lemma Start_after_early_messages_witness :
  (Start party_with_early_messages).2 = None
  ∧ Out (base (Start party_with_early_messages).1) = [commit_from 0 []].
Proof.
  destruct (Start_after_early_messages _ _ _ _ _ _
              fresh_party_of_three early_messages_stored)
    as (Herr & Hout & _).
  split; [exact Herr | exact Hout].
Defined.

(** X11: no index to recover yet. *)
Lemma OriginalIndex_before_rounds_witness :
  OriginalIndex (data party_with_early_messages)
  = Returned (-1, Some index_not_recovered).
Proof.
  exact (OriginalIndex_before_rounds _ _ _ _ _ _
           fresh_party_of_three early_messages_stored).
Defined.

(** X13: two [Finish] calls among the five. *)
Lemma result_channel_counts_Finish_witness :
  length (end_ party_after_mixed_calls) = 2%nat.
Proof.
  destruct (result_channel_counts_Finish _ _ _ mixed_calls_made) as [_ Hlen].
  exact Hlen.
Defined.

(** X14: still party 0. *)
Lemma PartyID_stable_witness :
  LocalParty_PartyID party_after_mixed_calls = party 0.
Proof.
  exact (PartyID_stable _ _ _ _ _ _ fresh_party_of_three mixed_calls_made).
Defined.


(** X16: the commitments of parties 0 and 1 arrived, that of party 2 did
    not. *)
Lemma filled_slots_are_senders_witness :
  slot_filled KGRound1Commit (store (temp party_with_early_messages)) 1
  ∧ ¬ slot_filled KGRound1Commit (store (temp party_with_early_messages)) 2.
Proof.
  split.
  - apply (filled_slots_are_senders _ _ _ _ _ _ KGRound1Commit 1
             fresh_party_of_three early_messages_stored).
    exists (commit_from 1 [12]). split_and!; try reflexivity. by left.
  - intros Hfilled.
    apply (filled_slots_are_senders _ _ _ _ _ _ KGRound1Commit 2
             fresh_party_of_three early_messages_stored) in Hfilled
      as (msg & Hin & _ & Hty & Hidx).
    unfold early_messages in Hin.
    repeat (apply elem_of_cons in Hin as [-> | Hin]);
      try discriminate Hty; try discriminate Hidx.
    by apply elem_of_nil in Hin.
Defined.
